(** * Forward-scattering Hamiltonian construction of scripts/QCD-RE.py

    A shallow embedding of the Hamiltonian-construction core of
    [src/scripts/QCD-RE.py]: momentum sampling, the coupling graph and
    its expansion into weighted Pauli strings.

    Modelling conventions:
    - Python floats are modelled by real numbers [R] (exact arithmetic).
    - Node identifiers are Python ints built by a counter from 0, modelled
      as [nat]; the particle count [n_neutrinos] may be any int and is [Z].
    - Python strings of Pauli symbols are [list ascii]; slicing
      [s[:i]] and [s[i+1:]] are [firstn i s] and [skipn (S i) s].
    - The random source is an explicit argument [draws : nat -> R*R*R]:
      the k-th call of [generate_spherical_momentum] (counting from 0)
      draws the three normal samples [draws k].
    - A networkx [Graph] is modelled by its node list (in insertion order,
      with the optional ['weight'] attribute) and its edge list (with the
      ['weight'] attribute). *)

From Stdlib Require Import Reals Lra Lia ZArith Ascii.
From Stdlib Require Import Strings.String.
From Stdlib Require Numbers.DecimalString Numbers.DecimalZ.
From stdpp Require Import base gmap list.

(* ------------------------------------------------------------------ *)
(** ** Numerics *)

(** [np.inner] on two 1-d arrays: the left-to-right sum of the pointwise
    products.  It is only applied to the 3-element momentum lists. *)
Definition np_inner (a b : list R) : R :=
  fold_left (fun acc p => (acc + fst p * snd p)%R) (combine a b) 0%R.

(** [generate_spherical_momentum], given the three normal samples
    [x, y, z] of one call.  ([1/0] is [0] in [R]; numpy would give inf:
    the claims below only use draws of nonzero norm.) *)
Definition generate_spherical_momentum (d : R * R * R) : list R :=
  let '(x, y, z) := d in
  let constant := (1 / sqrt (x ^ 2 + y ^ 2 + z ^ 2))%R in
  [(constant * x)%R; (constant * y)%R; (constant * z)%R].

(** [define_forward_scattering_term]. *)
Definition define_forward_scattering_term (n_neutrinos : Z)
    (curr_momentum neighbor_momentum : list R) : R :=
  let normalization_factor := (1 / (sqrt 2 * IZR n_neutrinos))%R in
  let couplings := (1 - np_inner curr_momentum neighbor_momentum)%R in
  let normalized_couplings := (normalization_factor * couplings)%R in
  normalized_couplings.

(** [gen_couplings]: the dictionary lookups [momentum[...]] fail
    (KeyError) on a missing key, hence the [option]. *)
Definition gen_couplings (n_neutrinos : Z) (curr_id neighbor_id : nat)
    (momentum : gmap nat (list R)) : option R :=
  curr_momentum ← momentum !! curr_id;
  neighbor_momentum ← momentum !! neighbor_id;
  Some (define_forward_scattering_term n_neutrinos curr_momentum
          neighbor_momentum).

(* ------------------------------------------------------------------ *)
(** ** The networkx graph *)

Record nx_graph := NxGraph {
  g_nodes : list (nat * option R);   (* node id, 'weight' attribute *)
  g_edges : list (nat * nat * R)     (* endpoints, 'weight' attribute *)
}.

Module NX.

Definition empty : nx_graph := NxGraph [] [].

Definition has_node (g : nx_graph) (k : nat) : bool :=
  existsb (fun nd => Nat.eqb (fst nd) k) (g_nodes g).

(** [len(g)], [len(g.nodes)] and [list(g.nodes)]. *)
Definition node_ids (g : nx_graph) : list nat := map fst (g_nodes g).

(** [g.add_node(k, weight=w)]: a new node is appended, an existing one
    gets its attribute updated. *)
Definition add_node (g : nx_graph) (k : nat) (w : R) : nx_graph :=
  if has_node g k then
    NxGraph (map (fun nd => if Nat.eqb (fst nd) k then (k, Some w) else nd)
                 (g_nodes g)) (g_edges g)
  else NxGraph (g_nodes g ++ [(k, Some w)]) (g_edges g).

(** A node added implicitly by [add_edge] carries no attribute. *)
Definition ensure_node (g : nx_graph) (k : nat) : nx_graph :=
  if has_node g k then g else NxGraph (g_nodes g ++ [(k, None)]) (g_edges g).

(** The edge [e] joins [u] and [v] (undirected). *)
Definition edge_matches (u v : nat) (e : nat * nat * R) : bool :=
  let '(a, b, _) := e in
  (Nat.eqb a u && Nat.eqb b v) || (Nat.eqb a v && Nat.eqb b u).

Definition has_edge (g : nx_graph) (u v : nat) : bool :=
  existsb (edge_matches u v) (g_edges g).

(** [g.add_edge(u, v, weight=w)]: adds missing endpoints, then appends a
    new edge or updates the weight of the existing one. *)
Definition add_edge (g : nx_graph) (u v : nat) (w : R) : nx_graph :=
  let g1 := ensure_node (ensure_node g u) v in
  if has_edge g1 u v then
    NxGraph (g_nodes g1)
      (map (fun e => if edge_matches u v e then (e.1.1, e.1.2, w) else e)
           (g_edges g1))
  else NxGraph (g_nodes g1) (g_edges g1 ++ [(u, v, w)]).

(** [g[u][v]['weight']]. *)
Definition edge_weight (g : nx_graph) (u v : nat) : option R :=
  match List.find (edge_matches u v) (g_edges g) with
  | Some (_, _, w) => Some w
  | None => None
  end.

End NX.

(* ------------------------------------------------------------------ *)
(** ** [generate_heisenberg_graph] *)

(** The first loop: [for _ in range(n_neutrinos)], adding node [node_id]
    with the site weight and sampling its momentum (the [node_id]-th call
    of the sampler), then [node_id += 1]. *)
Fixpoint node_loop (iters : nat) (site_interaction : R)
    (draws : nat -> R * R * R) (node_id : nat) (graph : nx_graph)
    (momentum : gmap nat (list R)) : nx_graph * gmap nat (list R) :=
  match iters with
  | O => (graph, momentum)
  | S it =>
      node_loop it site_interaction draws (S node_id)
        (NX.add_node graph node_id site_interaction)
        (<[node_id := generate_spherical_momentum (draws node_id)]> momentum)
  end.

(** The inner loop [for neighbor in list(graph.nodes)[idx+1:]]. *)
Fixpoint neighbor_loop (n_neutrinos : Z) (momentum : gmap nat (list R))
    (curr_id : nat) (neighbors : list nat) (graph : nx_graph)
    : option nx_graph :=
  match neighbors with
  | [] => Some graph
  | neighbor :: rest =>
      coupling_terms ← gen_couplings n_neutrinos curr_id neighbor momentum;
      neighbor_loop n_neutrinos momentum curr_id rest
        (NX.add_edge graph curr_id neighbor coupling_terms)
  end.

(** The outer loop [for idx, node in enumerate(graph.nodes)]; the list of
    neighbours is re-read from the current graph at each iteration, as
    [list(graph.nodes)] is. *)
Fixpoint enum_loop (n_neutrinos : Z) (momentum : gmap nat (list R))
    (nodes : list nat) (idx : nat) (graph : nx_graph) : option nx_graph :=
  match nodes with
  | [] => Some graph
  | node :: rest =>
      graph' ← neighbor_loop n_neutrinos momentum node
                 (skipn (S idx) (NX.node_ids graph)) graph;
      enum_loop n_neutrinos momentum rest (S idx) graph'
  end.

Definition generate_heisenberg_graph (n_neutrinos : Z) (site_interaction : R)
    (draws : nat -> R * R * R) : option nx_graph :=
  let '(graph, momentum) :=
    node_loop (Z.to_nat n_neutrinos) site_interaction draws 0 NX.empty ∅ in
  enum_loop n_neutrinos momentum (NX.node_ids graph) 0 graph.

(* ------------------------------------------------------------------ *)
(** ** [flatten_nx_graph] *)

Fixpoint position (k : nat) (l : list nat) : option nat :=
  match l with
  | [] => None
  | x :: r => if Nat.eqb x k then Some 0 else option_map S (position k r)
  end.

(** Modelled from the spec: [flatten_nx_graph] (qca.utils.hamiltonian_utils,
    not in the sources) relabels the node identifiers to the contiguous
    range 0..N-1; each node gets its position in the node order, and edges
    and attributes are carried over. *)
Definition flatten_nx_graph (g : nx_graph) : nx_graph :=
  let new_id k := default k (position k (NX.node_ids g)) in
  NxGraph (map (fun nd => (new_id nd.1, nd.2)) (g_nodes g))
          (map (fun e => (new_id e.1.1, new_id e.1.2, e.2)) (g_edges g)).

(* ------------------------------------------------------------------ *)
(** ** [nx_heisenberg_terms] *)

Abbreviation pstring := (list ascii).
Abbreviation term := (pstring * R)%type.

(** [f'{s[:i]}{pauli}{s[i+1:]}']. *)
Definition set_char (s : pstring) (i : nat) (pauli : ascii) : pstring :=
  firstn i s ++ [pauli] ++ skipn (S i) s.

(** [for i in range(len(g))]: overwrite position [i] when it is an
    endpoint, then append the current buffer with the edge weight.
    Returns the final buffer and the appended terms in order. *)
Fixpoint site_pass (pauli : ascii) (n1 n2 : nat) (weight : R)
    (idx : list nat) (s : pstring) : pstring * list term :=
  match idx with
  | [] => (s, [])
  | i :: rest =>
      let s' := if Nat.eqb i n1 || Nat.eqb i n2 then set_char s i pauli
                else s in
      let '(sf, ts) := site_pass pauli n1 n2 weight rest s' in
      (sf, (s', weight) :: ts)
  end.

(** [for pauli in ['X', 'Y', 'Z']]: the buffer is not reset between axes. *)
Fixpoint axis_pass (paulis : list ascii) (n1 n2 : nat) (weight : R)
    (len_g : nat) (s : pstring) : pstring * list term :=
  match paulis with
  | [] => (s, [])
  | pauli :: rest =>
      let '(s1, ts1) := site_pass pauli n1 n2 weight (seq 0 len_g) s in
      let '(s2, ts2) := axis_pass rest n1 n2 weight len_g s1 in
      (s2, ts1 ++ ts2)
  end.

Definition paulis_XYZ : list ascii := ["X"; "Y"; "Z"]%char.

(** The body of [for (n1, n2, d) in g.edges(data=True)], with the buffer
    initialised to [n * 'I']. *)
Definition edge_terms (n len_g : nat) (e : nat * nat * R) : list term :=
  let '(n1, n2, weight) := e in
  (axis_pass paulis_XYZ n1 n2 weight len_g (repeat "I"%char n)).2.

(** [nx_heisenberg_terms]: the per-edge blocks appended in edge order.
    networkx reports edges by adjacency; for graphs built by
    [generate_heisenberg_graph] (edges (i, j), i < j, added in
    lexicographic order) this is the insertion order kept here. *)
Definition nx_heisenberg_terms (g : nx_graph) : list term :=
  let n := length (g_nodes g) in
  flat_map (edge_terms n (length (g_nodes g))) (g_edges g).

Definition generate_forward_scattering (n_neutrinos : Z)
    (site_interactions : R) (draws : nat -> R * R * R) : option (list term) :=
  graph ← generate_heisenberg_graph n_neutrinos site_interactions draws;
  let flat_graph := flatten_nx_graph graph in
  Some (nx_heisenberg_terms flat_graph).

(* ------------------------------------------------------------------ *)
(** ** Auxiliary notions used in the statements *)

(** The Euclidean norm of a momentum list. *)
Definition euclidean_norm (v : list R) : R := sqrt (np_inner v v).

(** An operator string made only of identities. *)
Definition is_all_I (s : pstring) : bool :=
  forallb (fun c => if ascii_dec c "I"%char then true else false) s.

Definition count_all_I (ts : list term) : nat :=
  length (List.filter (fun t => is_all_I t.1) ts).

(** The momentum of node [k]: the [k]-th sampler call. *)
Definition momentum_of (draws : nat -> R * R * R) (k : nat) : list R :=
  generate_spherical_momentum (draws k).

(** The edges (i, j) with i < j < N for the nodes [l], in loop order, with
    their couplings: the closed form of the edge loop. *)
Definition coupling_edges (n_neutrinos : Z) (draws : nat -> R * R * R)
    (N : nat) (l : list nat) : list (nat * nat * R) :=
  flat_map (fun i => map (fun j => (i, j, define_forward_scattering_term
                                            n_neutrinos (momentum_of draws i)
                                            (momentum_of draws j)))
                         (seq (S i) (N - S i))) l.

(** A fixed random source for concrete runs: every draw is (1, 0, 0). *)
Definition draws_unit_x (k : nat) : R * R * R := (1%R, 0%R, 0%R).

(** A source whose draws from the third call on point along z. *)
Definition draws_after_two (k : nat) : R * R * R :=
  if k <? 2 then (1, 0, 0)%R else (0, 0, 1)%R.

Definition built_graph (n_neutrinos : Z) (site_interaction : R)
    (draws : nat -> R * R * R) : nx_graph :=
  let N := Z.to_nat n_neutrinos in
  NxGraph (map (fun k => (k, Some site_interaction)) (seq 0 N))
          (coupling_edges n_neutrinos draws N (seq 0 N)).

(* ------------------------------------------------------------------ *)
(** ** The run name computed in [main] *)

(** [str(k)] of a Python int: its decimal digits, with a leading [-] when
    negative. *)
Definition py_str_int (k : Z) : string :=
  DecimalString.NilZero.string_of_int (Z.to_int k).

(** [args.trotter_steps] is an int or [None] (the default). *)
Definition py_str_opt (o : option Z) : string :=
  match o with Some k => py_str_int k | None => "None" end.

(** Python truthiness of an optional int: [None] and [0] are false. *)
Definition py_truthy (o : option Z) : bool :=
  match o with Some k => negb (Z.eqb k 0) | None => false end.

(** [hamiltonian_name = f'{num_steps}_step_fs_{n_neutrinos}' if num_steps
    else f'estimated_fs_{n_neutrinos}'] in [main]. *)
Definition hamiltonian_name (num_steps : option Z) (n_neutrinos : Z)
    : string :=
  if py_truthy num_steps then
    String.append (py_str_opt num_steps)
      (String.append "_step_fs_" (py_str_int n_neutrinos))
  else String.append "estimated_fs_" (py_str_int n_neutrinos).

(* ------------------------------------------------------------------ *)
(** ** Auxiliary notions for the expansion *)

Definition is_pauli_symbol (c : ascii) : Prop :=
  c = "I"%char ∨ c = "X"%char ∨ c = "Y"%char ∨ c = "Z"%char.

(** A buffer of an edge (a, b): [N] symbols of {I, X, Y, Z}, identity away
    from [a] and [b]. *)
Definition edge_buffer (N a b : nat) (s : pstring) : Prop :=
  length s = N ∧
  ∀ i c, s !! i = Some c → is_pauli_symbol c ∧ (i ≠ a → i ≠ b → c = "I"%char).

(** The identity string with [pauli] written at [a] and [b]. *)
Definition axis_snapshot (N a b : nat) (pauli : ascii) : pstring :=
  <[a:=pauli]> (<[b:=pauli]> (repeat "I"%char N)).

(* ------------------------------------------------------------------ *)
(** ** The Pauli expansion *)

Lemma site_pass_length pauli n1 n2 w idx s :
  length (site_pass pauli n1 n2 w idx s).2 = length idx.
Proof.
  revert s; induction idx as [|i rest IH]; intros s; simpl; [done|].
  destruct (site_pass _ _ _ _ rest _) as [sf ts] eqn:E.
  simpl. f_equal. specialize (IH (if (i =? n1) || (i =? n2) then
    set_char s i pauli else s)). rewrite E in IH. exact IH.
Qed.

Lemma axis_pass_length paulis n1 n2 w len_g s :
  length (axis_pass paulis n1 n2 w len_g s).2 = length paulis * len_g.
Proof.
  revert s; induction paulis as [|p rest IH]; intros s; simpl; [done|].
  destruct (site_pass p n1 n2 w (seq 0 len_g) s) as [s1 ts1] eqn:E1.
  destruct (axis_pass rest n1 n2 w len_g s1) as [s2 ts2] eqn:E2.
  simpl. rewrite length_app.
  pose proof (site_pass_length p n1 n2 w (seq 0 len_g) s) as H1.
  rewrite E1 in H1. simpl in H1. rewrite H1, length_seq.
  specialize (IH s1). rewrite E2 in IH. simpl in IH. rewrite IH. lia.
Qed.

Lemma edge_terms_length n len_g e :
  length (edge_terms n len_g e) = 3 * len_g.
Proof.
  destruct e as [[n1 n2] w]. unfold edge_terms.
  rewrite axis_pass_length. reflexivity.
Qed.

Lemma set_char_insert s i p :
  i < length s → set_char s i p = <[i:=p]> s.
Proof. intros Hi. unfold set_char. rewrite insert_take_drop by done. done. Qed.

Lemma site_pass_app pauli n1 n2 w l1 l2 s :
  site_pass pauli n1 n2 w (l1 ++ l2) s =
  let '(s1, t1) := site_pass pauli n1 n2 w l1 s in
  let '(s2, t2) := site_pass pauli n1 n2 w l2 s1 in
  (s2, t1 ++ t2).
Proof.
  revert s; induction l1 as [|i rest IH]; intros s; simpl.
  - destruct (site_pass _ _ _ _ l2 s); done.
  - rewrite IH.
    destruct (site_pass _ _ _ _ rest _) as [s1 t1].
    destruct (site_pass _ _ _ _ l2 s1) as [s2 t2]. done.
Qed.

(** Indices that are not endpoints leave the buffer alone and repeat it. *)
Lemma site_pass_skip pauli n1 n2 w idx s :
  (∀ i, In i idx → i ≠ n1 ∧ i ≠ n2) →
  site_pass pauli n1 n2 w idx s = (s, repeat (s, w) (length idx)).
Proof.
  revert s; induction idx as [|i rest IH]; intros s Hidx; simpl; [done|].
  destruct (Hidx i (or_introl eq_refl)) as [H1 H2].
  apply Nat.eqb_neq in H1, H2. rewrite H1, H2. simpl.
  rewrite IH; [done|]. intros j Hj. apply Hidx. by right.
Qed.

(** A buffer holding a non-identity symbol at position [q]. *)
Definition marked (q : nat) (s : pstring) : Prop :=
  ∃ c, s !! q = Some c ∧ c ≠ "I"%char.

Lemma marked_not_all_I q s : marked q s → is_all_I s = false.
Proof.
  intros [c [Hq Hc]]. unfold is_all_I.
  destruct (forallb _ s) eqn:E; [|done].
  apply list_elem_of_lookup_2, list_elem_of_In in Hq.
  rewrite forallb_forall in E. specialize (E c Hq).
  destruct (ascii_dec c "I"); done.
Qed.

Lemma site_pass_marked pauli n1 n2 w idx s q :
  pauli ≠ "I"%char → (∀ i, In i idx → i < length s) → marked q s →
  length (site_pass pauli n1 n2 w idx s).1 = length s ∧
  marked q (site_pass pauli n1 n2 w idx s).1 ∧
  Forall (fun t => is_all_I t.1 = false) (site_pass pauli n1 n2 w idx s).2.
Proof.
  intros Hp. revert s; induction idx as [|i rest IH]; intros s Hidx Hm;
    simpl; [done|].
  set (s' := if (i =? n1) || (i =? n2) then set_char s i pauli else s).
  assert (Hs' : length s' = length s ∧ marked q s').
  { subst s'. destruct (_ || _); [|done].
    assert (Hi : i < length s) by (apply Hidx; left; done).
    rewrite set_char_insert by done. split; [apply length_insert|].
    destruct Hm as [c [Hc Hcn]]. unfold marked.
    destruct (decide (i = q)) as [->|Hne].
    - exists pauli. split; [by apply list_lookup_insert_eq | done].
    - exists c. split; [|done].
      etransitivity; [by apply list_lookup_insert_ne | exact Hc]. }
  destruct Hs' as [Hl Hm'].
  destruct (IH s') as [IH1 [IH2 IH3]].
  { intros j Hj. rewrite Hl. apply Hidx. by right. }
  { done. }
  destruct (site_pass _ _ _ _ rest s') as [sf ts]. simpl in *.
  split; [lia|]. split; [done|]. constructor; [|done].
  by apply (marked_not_all_I q).
Qed.

Lemma axis_pass_marked paulis n1 n2 w len_g s q :
  Forall (fun p => p ≠ "I"%char) paulis → len_g ≤ length s → marked q s →
  marked q (axis_pass paulis n1 n2 w len_g s).1 ∧
  Forall (fun t => is_all_I t.1 = false) (axis_pass paulis n1 n2 w len_g s).2.
Proof.
  revert s; induction paulis as [|p rest IH]; intros s Hps Hlen Hm;
    simpl; [done|].
  inversion Hps as [|? ? Hp Hrest]; subst.
  destruct (site_pass_marked p n1 n2 w (seq 0 len_g) s q Hp) as [H1 [H2 H3]].
  { intros i Hi. apply in_seq in Hi. lia. }
  { done. }
  destruct (site_pass p n1 n2 w (seq 0 len_g) s) as [s1 ts1]. simpl in *.
  destruct (IH s1) as [IH1 IH2]; [done|lia|done|].
  destruct (axis_pass rest n1 n2 w len_g s1) as [s2 ts2]. simpl in *.
  split; [done|]. by apply Forall_app.
Qed.

Lemma count_all_I_app l1 l2 :
  count_all_I (l1 ++ l2) = count_all_I l1 + count_all_I l2.
Proof. unfold count_all_I. rewrite List.filter_app, length_app. done. Qed.

Lemma count_all_I_none l :
  Forall (fun t => is_all_I t.1 = false) l → count_all_I l = 0.
Proof.
  induction 1 as [|t l Ht _ IH]; [done|].
  unfold count_all_I in *. simpl. rewrite Ht. done.
Qed.

Lemma is_all_I_repeat N : is_all_I (repeat "I"%char N) = true.
Proof. induction N; [done|]. simpl. done. Qed.

Lemma count_all_I_repeat N w m :
  count_all_I (repeat (repeat "I"%char N, w) m) = m.
Proof.
  induction m; [done|]. unfold count_all_I in *. simpl.
  rewrite is_all_I_repeat. simpl. lia.
Qed.

Lemma axis_pass_cons pauli rest n1 n2 w len_g s :
  axis_pass (pauli :: rest) n1 n2 w len_g s =
  let '(s1, ts1) := site_pass pauli n1 n2 w (seq 0 len_g) s in
  let '(s2, ts2) := axis_pass rest n1 n2 w len_g s1 in
  (s2, ts1 ++ ts2).
Proof. reflexivity. Qed.

Lemma firstn_repeat_app {A} (x : A) m (l : list A) :
  firstn m (repeat x m ++ l) = repeat x m.
Proof. induction m; simpl; [done|]. by rewrite IHm. Qed.

(** The X pass of an edge (a, b): [min a b] untouched all-identity
    snapshots, then snapshots that all carry a Pauli symbol at
    position [min a b]. *)
Lemma x_pass_shape N a b w :
  min a b < N →
  ∃ sX tsX,
    site_pass "X"%char a b w (seq 0 N) (repeat "I"%char N) =
      (sX, repeat (repeat "I"%char N, w) (min a b) ++ tsX) ∧
    length sX = N ∧ marked (min a b) sX ∧
    Forall (fun t => is_all_I t.1 = false) tsX.
Proof.
  intros Hm. set (m := min a b) in *.
  replace (seq 0 N) with (seq 0 m ++ seq m (N - m))
    by (rewrite <- seq_app; f_equal; lia).
  rewrite site_pass_app.
  rewrite (site_pass_skip _ _ _ _ (seq 0 m)).
  2:{ intros i Hi. apply in_seq in Hi. subst m. lia. }
  rewrite length_seq.
  replace (N - m) with (S (N - S m)) by lia. simpl site_pass.
  assert (Hhit : (m =? a) || (m =? b) = true).
  { apply orb_true_iff. subst m.
    destruct (Nat.le_ge_cases a b);
      [left | right]; apply Nat.eqb_eq; lia. }
  rewrite Hhit.
  set (s1 := set_char (repeat "I"%char N) m "X"%char).
  assert (Hs1 : length s1 = N ∧ marked m s1).
  { subst s1. rewrite set_char_insert by (rewrite repeat_length; lia).
    split; [by rewrite length_insert, repeat_length|].
    exists "X"%char. split; [|done].
    apply list_lookup_insert_eq. rewrite repeat_length. lia. }
  destruct Hs1 as [Hl1 Hm1].
  destruct (site_pass_marked "X"%char a b w (seq (S m) (N - S m)) s1 m)
    as [H1 [H2 H3]]; [done| |done|].
  { intros i Hi. apply in_seq in Hi. lia. }
  destruct (site_pass _ a b w (seq (S m) (N - S m)) s1) as [sf ts].
  simpl in *. exists sf, ((s1, w) :: ts).
  split; [done|]. split; [lia|]. split; [done|].
  constructor; [|done]. by apply (marked_not_all_I m).
Qed.

(** One edge block: exactly its first [min a b] terms are all-identity,
    with the edge weight. *)
Lemma edge_terms_identity_block N a b w :
  min a b < N →
  firstn (min a b) (edge_terms N N (a, b, w)) =
    repeat (repeat "I"%char N, w) (min a b) ∧
  count_all_I (edge_terms N N (a, b, w)) = min a b.
Proof.
  intros Hm. unfold edge_terms, paulis_XYZ.
  destruct (x_pass_shape N a b w Hm) as (sX & tsX & HX & Hl & HmX & Hts).
  rewrite axis_pass_cons, HX.
  destruct (axis_pass_marked ["Y"; "Z"]%char a b w N sX (min a b))
    as [_ Hrest].
  { repeat constructor; done. }
  { lia. }
  { done. }
  destruct (axis_pass ["Y"; "Z"]%char a b w N sX) as [s2 ts2]. simpl in *.
  rewrite <- app_assoc. split; [apply firstn_repeat_app|].
  rewrite count_all_I_app, count_all_I_app, count_all_I_repeat,
    (count_all_I_none tsX), (count_all_I_none ts2) by done.
  lia.
Qed.

(** C1: every edge contributes exactly [3 * N] terms (one per axis in
    [X, Y, Z] and site index [0..N-1]), so [nx_heisenberg_terms] returns
    [3 * N * edge_count] terms for a graph with [N] nodes. *)
Theorem nx_heisenberg_terms_count (g : nx_graph) :
  (∀ e, In e (g_edges g) →
     length (edge_terms (length (g_nodes g)) (length (g_nodes g)) e) =
     3 * length (g_nodes g)) ∧
  length (nx_heisenberg_terms g) =
    3 * length (g_nodes g) * length (g_edges g).
Proof.
  split; [intros e _; apply edge_terms_length|].
  unfold nx_heisenberg_terms.
  induction (g_edges g) as [|e es IH]; simpl; [lia|].
  rewrite length_app, edge_terms_length, IH. lia.
Qed.

(* ------------------------------------------------------------------ *)
(** ** The graph builder *)

Lemma existsb_false_iff {A} (f : A → bool) (l : list A) :
  existsb f l = false ↔ ∀ x, In x l → f x = false.
Proof.
  induction l as [|a l IH]; simpl; [split; [intros _ x []|done]|].
  rewrite orb_false_iff, IH. split.
  - intros [Ha Hl] x [<-|Hx]; auto.
  - intros H. split; auto.
Qed.

Lemma node_loop_spec it site draws j g m :
  (∀ nd, In nd (g_nodes g) → nd.1 < j) →
  (node_loop it site draws j g m).1 =
    NxGraph (g_nodes g ++ map (fun k => (k, Some site)) (seq j it))
            (g_edges g) ∧
  (∀ x, j ≤ x < j + it →
     (node_loop it site draws j g m).2 !! x = Some (momentum_of draws x)) ∧
  (∀ x, x < j → (node_loop it site draws j g m).2 !! x = m !! x).
Proof.
  revert j g m; induction it as [|it IH]; intros j g m Hg; simpl.
  - rewrite app_nil_r. destruct g; split; [done|]. split; [lia|done].
  - assert (Hn : NX.has_node g j = false).
    { apply existsb_false_iff. intros nd Hnd.
      apply Nat.eqb_neq. specialize (Hg nd Hnd). lia. }
    unfold NX.add_node. rewrite Hn.
    set (m' := <[j:=generate_spherical_momentum (draws j)]> m).
    destruct (IH (S j) (NxGraph (g_nodes g ++ [(j, Some site)]) (g_edges g))
                m') as [H1 [H2 H3]].
    { simpl. intros nd [Hnd|[<-|[]]]%in_app_iff; simpl; [|lia].
      specialize (Hg nd Hnd). lia. }
    split; [rewrite H1; simpl; by rewrite <- app_assoc|].
    split.
    + intros x Hx. destruct (decide (x = j)) as [->|Hne].
      * rewrite H3 by lia. subst m'. by rewrite lookup_insert_eq.
      * apply H2. lia.
    + intros x Hx. rewrite H3 by lia. subst m'.
      rewrite lookup_insert_ne by lia. done.
Qed.

Lemma add_edge_fresh g u v w :
  NX.has_node g u = true → NX.has_node g v = true →
  NX.has_edge g u v = false →
  NX.add_edge g u v w = NxGraph (g_nodes g) (g_edges g ++ [(u, v, w)]).
Proof.
  intros Hu Hv He. unfold NX.add_edge, NX.ensure_node.
  rewrite Hu, Hv, He. done.
Qed.

Section Builder.
Variables (n_neutrinos : Z) (draws : nat -> R * R * R) (N : nat).
Variable (momentum : gmap nat (list R)).
Hypothesis Hmom : ∀ x, x < N → momentum !! x = Some (momentum_of draws x).

Let W i j := define_forward_scattering_term n_neutrinos
               (momentum_of draws i) (momentum_of draws j).

Lemma gen_couplings_built i j :
  i < N → j < N → gen_couplings n_neutrinos i j momentum = Some (W i j).
Proof.
  intros Hi Hj. unfold gen_couplings. rewrite Hmom, Hmom by done. done.
Qed.

Lemma neighbor_loop_spec curr nbrs g :
  curr < N → (∀ nb, In nb nbrs → curr < nb < N) → NoDup nbrs →
  NX.has_node g curr = true →
  (∀ nb, In nb nbrs → NX.has_node g nb = true) →
  (∀ nb, In nb nbrs → NX.has_edge g curr nb = false) →
  neighbor_loop n_neutrinos momentum curr nbrs g =
    Some (NxGraph (g_nodes g)
            (g_edges g ++ map (fun j => (curr, j, W curr j)) nbrs)).
Proof.
  revert g; induction nbrs as [|nb rest IH];
    intros g Hc Hnb Hnd Hcur Hnodes Hedges; simpl.
  - rewrite app_nil_r. by destruct g.
  - rewrite gen_couplings_built by (try done; apply Hnb; left; done).
    simpl. rewrite add_edge_fresh by (try done; auto with datatypes).
    inversion Hnd as [|? ? Hnotin Hnd']; subst.
    rewrite IH; simpl.
    + by rewrite <- app_assoc.
    + done.
    + intros x Hx. apply Hnb. by right.
    + done.
    + done.
    + intros x Hx. apply Hnodes. by right.
    + intros x Hx. unfold NX.has_edge. simpl.
      rewrite existsb_app.
      change (existsb (NX.edge_matches curr x) (g_edges g))
        with (NX.has_edge g curr x).
      rewrite Hedges by (by right). simpl.
      assert (nb ≠ x) by (intros ->; apply Hnotin;
        try apply list_elem_of_In; done).
      assert (curr < x) by (apply Hnb; by right).
      assert (curr < nb) by (apply Hnb; by left).
      destruct (Nat.eqb_spec curr curr), (Nat.eqb_spec nb x),
        (Nat.eqb_spec curr x), (Nat.eqb_spec nb curr); simpl; lia.
Qed.

Lemma node_ids_of_seq (site : R) (l : list nat) :
  map fst (map (fun x => (x, Some site)) l) = l.
Proof. induction l as [|x l IH]; simpl; [done|]. by rewrite IH. Qed.

Lemma has_node_of_seq (site : R) g x :
  g_nodes g = map (fun y => (y, Some site)) (seq 0 N) → x < N →
  NX.has_node g x = true.
Proof.
  intros Hg Hx. unfold NX.has_node. rewrite Hg. apply existsb_exists.
  exists (x, Some site). split; [|apply Nat.eqb_refl].
  apply in_map_iff. exists x. split; [done|]. apply in_seq. lia.
Qed.

Lemma enum_loop_spec (site : R) k j g :
  j + k = N →
  g_nodes g = map (fun x => (x, Some site)) (seq 0 N) →
  (∀ e, In e (g_edges g) → e.1.1 < j ∧ e.1.1 < e.1.2) →
  enum_loop n_neutrinos momentum (seq j k) j g =
    Some (NxGraph (g_nodes g)
            (g_edges g ++ coupling_edges n_neutrinos draws N (seq j k))).
Proof.
  revert j g; induction k as [|k IH]; intros j g Hjk Hg Hedges; simpl.
  - rewrite app_nil_r. by destruct g.
  - unfold NX.node_ids. rewrite Hg, node_ids_of_seq, skipn_seq.
    simpl (0 + S j).
    rewrite (neighbor_loop_spec j).
    + simpl. rewrite IH; simpl.
      * rewrite <- app_assoc, Hg. reflexivity.
      * lia.
      * done.
      * intros e [He|He]%in_app_iff.
        -- specialize (Hedges e He). lia.
        -- apply in_map_iff in He as [x [<- Hx]]. apply in_seq in Hx.
           simpl. lia.
    + lia.
    + intros nb Hnb. apply in_seq in Hnb. lia.
    + apply NoDup_seq.
    + apply (has_node_of_seq site); [done|lia].
    + intros nb Hnb. apply in_seq in Hnb.
      apply (has_node_of_seq site); [done|lia].
    + intros nb Hnb. apply in_seq in Hnb. apply existsb_false_iff.
      intros [[a b] w] He. specialize (Hedges _ He). simpl in *.
      destruct (Nat.eqb_spec a j), (Nat.eqb_spec b nb),
        (Nat.eqb_spec a nb), (Nat.eqb_spec b j); simpl; lia.
Qed.
End Builder.

(** The graph built by [generate_heisenberg_graph], in closed form. *)
Lemma generate_heisenberg_graph_spec n_neutrinos site draws :
  generate_heisenberg_graph n_neutrinos site draws =
    Some (built_graph n_neutrinos site draws).
Proof.
  unfold generate_heisenberg_graph.
  destruct (node_loop_spec (Z.to_nat n_neutrinos) site draws 0 NX.empty ∅)
    as [H1 [H2 _]]; [simpl; done|].
  destruct (node_loop _ _ _ _ _ _) as [graph momentum]. simpl in H1, H2.
  subst graph. unfold NX.node_ids. simpl.
  rewrite node_ids_of_seq.
  rewrite (enum_loop_spec n_neutrinos draws (Z.to_nat n_neutrinos) momentum)
    with (site := site); simpl.
  - done.
  - intros x Hx. apply H2. lia.
  - lia.
  - done.
  - intros e [].
Qed.

Lemma coupling_edges_In n_neutrinos draws N e :
  In e (coupling_edges n_neutrinos draws N (seq 0 N)) ↔
  ∃ i j, i < j < N ∧
    e = (i, j, define_forward_scattering_term n_neutrinos
                 (momentum_of draws i) (momentum_of draws j)).
Proof.
  unfold coupling_edges. rewrite in_flat_map. split.
  - intros [i [Hi He]]. apply in_map_iff in He as [j [<- Hj]].
    apply in_seq in Hi, Hj. exists i, j. split; [lia|done].
  - intros (i & j & Hij & ->). exists i. split; [apply in_seq; lia|].
    apply in_map_iff. exists j. split; [done|]. apply in_seq. lia.
Qed.

Lemma coupling_edges_length n_neutrinos draws N k j :
  j + k = N →
  2 * length (coupling_edges n_neutrinos draws N (seq j k)) = k * (k - 1).
Proof.
  revert j; induction k as [|k IH]; intros j Hjk; [done|].
  unfold coupling_edges in *. simpl.
  rewrite length_app, length_map, length_seq.
  specialize (IH (S j)). nia.
Qed.

Lemma position_seq k j m :
  j ≤ k < j + m → position k (seq j m) = Some (k - j).
Proof.
  revert j; induction m as [|m IH]; intros j Hk; [lia|]. simpl.
  destruct (Nat.eqb_spec j k) as [->|Hne].
  - f_equal. lia.
  - rewrite IH by lia. simpl. f_equal. lia.
Qed.

(** Relabelling leaves the built graph unchanged: its identifiers are
    already 0..N-1 in node order. *)
Lemma flatten_built n_neutrinos site draws :
  flatten_nx_graph (built_graph n_neutrinos site draws) =
  built_graph n_neutrinos site draws.
Proof.
  unfold flatten_nx_graph, built_graph, NX.node_ids. simpl.
  rewrite node_ids_of_seq. f_equal.
  - rewrite map_map. apply map_ext_in. intros k Hk. apply in_seq in Hk.
    simpl. rewrite position_seq by lia. simpl. f_equal. lia.
  - rewrite <- (map_id (coupling_edges _ _ _ _)) at 2.
    apply map_ext_in. intros e He.
    apply coupling_edges_In in He as (i & j & Hij & ->). simpl.
    rewrite !position_seq by lia. simpl. repeat f_equal; lia.
Qed.

Lemma generate_forward_scattering_spec n_neutrinos site draws :
  generate_forward_scattering n_neutrinos site draws =
    Some (nx_heisenberg_terms (built_graph n_neutrinos site draws)).
Proof.
  unfold generate_forward_scattering.
  rewrite generate_heisenberg_graph_spec. simpl. by rewrite flatten_built.
Qed.

Lemma find_unique {A} (f : A → bool) (l : list A) x :
  In x l → f x = true → (∀ y, In y l → f y = true → y = x) →
  List.find f l = Some x.
Proof.
  induction l as [|a l IH]; intros Hx Hf Huniq; [done|]. simpl.
  destruct (f a) eqn:Ha.
  - f_equal. apply Huniq; [left|]; done.
  - destruct Hx as [->|Hx]; [congruence|].
    apply IH; [done|done|]. intros y Hy. apply Huniq. by right.
Qed.

(* ------------------------------------------------------------------ *)
(** ** Numerics of the couplings *)

Lemma np_inner_comm (a b : list R) : np_inner a b = np_inner b a.
Proof.
  unfold np_inner. generalize 0%R as acc.
  revert b; induction a as [|x a IH]; intros b acc; destruct b as [|y b];
    simpl; try done.
  rewrite (Rmult_comm x y). apply IH.
Qed.

Lemma spherical_unit x y z :
  (x ^ 2 + y ^ 2 + z ^ 2 ≠ 0)%R →
  np_inner (generate_spherical_momentum (x, y, z))
           (generate_spherical_momentum (x, y, z)) = 1%R.
Proof.
  intros Hnz. unfold np_inner, generate_spherical_momentum.
  cbn [fold_left combine fst snd].
  set (S := (x ^ 2 + y ^ 2 + z ^ 2)%R) in *.
  assert (HS : (0 < S)%R).
  { subst S. assert (0 <= x ^ 2)%R by apply pow2_ge_0.
    assert (0 <= y ^ 2)%R by apply pow2_ge_0.
    assert (0 <= z ^ 2)%R by apply pow2_ge_0. lra. }
  assert (Hsq : (sqrt S * sqrt S = S)%R) by (apply sqrt_sqrt; lra).
  assert (Hpos : (0 < sqrt S)%R) by (apply sqrt_lt_R0; lra).
  transitivity (S / (sqrt S * sqrt S))%R.
  - subst S. field. lra.
  - rewrite Hsq. field. lra.
Qed.

(** Two unit vectors of the sampler have an inner product in [-1, 1]. *)
Lemma spherical_inner_bound d1 d2 :
  (let '(x, y, z) := d1 in x ^ 2 + y ^ 2 + z ^ 2 ≠ 0)%R →
  (let '(x, y, z) := d2 in x ^ 2 + y ^ 2 + z ^ 2 ≠ 0)%R →
  (-1 <= np_inner (generate_spherical_momentum d1)
                  (generate_spherical_momentum d2) <= 1)%R.
Proof.
  destruct d1 as [[x1 y1] z1], d2 as [[x2 y2] z2]. intros H1 H2.
  pose proof (spherical_unit x1 y1 z1 H1) as U1.
  pose proof (spherical_unit x2 y2 z2 H2) as U2.
  revert U1 U2. unfold np_inner, generate_spherical_momentum.
  cbn [fold_left combine fst snd].
  set (c1 := (1 / sqrt (x1 ^ 2 + y1 ^ 2 + z1 ^ 2))%R).
  set (c2 := (1 / sqrt (x2 ^ 2 + y2 ^ 2 + z2 ^ 2))%R).
  generalize (c1 * x1)%R (c1 * y1)%R (c1 * z1)%R
             (c2 * x2)%R (c2 * y2)%R (c2 * z2)%R.
  intros a1 a2 a3 b1 b2 b3 U1 U2.
  pose proof (pow2_ge_0 (a1 - b1)). pose proof (pow2_ge_0 (a2 - b2)).
  pose proof (pow2_ge_0 (a3 - b3)). pose proof (pow2_ge_0 (a1 + b1)).
  pose proof (pow2_ge_0 (a2 + b2)). pose proof (pow2_ge_0 (a3 + b3)).
  split; nra.
Qed.

(** The coupling of two sampled unit momenta on [n > 0] particles lies in
    [[0, sqrt 2 / n]]. *)
Lemma coupling_bounds (n_neutrinos : Z) d1 d2 :
  (0 < n_neutrinos)%Z →
  (let '(x, y, z) := d1 in x ^ 2 + y ^ 2 + z ^ 2 ≠ 0)%R →
  (let '(x, y, z) := d2 in x ^ 2 + y ^ 2 + z ^ 2 ≠ 0)%R →
  (0 <= define_forward_scattering_term n_neutrinos
          (generate_spherical_momentum d1) (generate_spherical_momentum d2)
   <= sqrt 2 / IZR n_neutrinos)%R.
Proof.
  intros Hn H1 H2.
  pose proof (spherical_inner_bound d1 d2 H1 H2) as Hb.
  unfold define_forward_scattering_term.
  set (d := np_inner _ _) in *.
  assert (HN : (0 < IZR n_neutrinos)%R) by (apply IZR_lt; lia).
  assert (Hr : (0 < sqrt 2)%R) by (apply sqrt_lt_R0; lra).
  assert (Hrr : (sqrt 2 * sqrt 2 = 2)%R) by (apply sqrt_sqrt; lra).
  assert (Hf : (0 < 1 / (sqrt 2 * IZR n_neutrinos))%R).
  { apply Rdiv_lt_0_compat; [lra|]. apply Rmult_lt_0_compat; lra. }
  split.
  - apply Rmult_le_pos; lra.
  - replace (sqrt 2 / IZR n_neutrinos)%R
      with (1 / (sqrt 2 * IZR n_neutrinos) * (sqrt 2 * sqrt 2))%R
      by (field; lra).
    apply Rmult_le_compat_l; lra.
Qed.

(** (C5) The coupling is symmetric in the two particles: for any momentum
    dictionary [gen_couplings] gives the same result for [(a, b)] and
    [(b, a)], and [define_forward_scattering_term] is symmetric in its two
    momentum arguments. *)
Theorem coupling_symmetric (n_neutrinos : Z) (a b : nat)
    (momentum : gmap nat (list R)) (p q : list R) :
  define_forward_scattering_term n_neutrinos p q =
    define_forward_scattering_term n_neutrinos q p ∧
  gen_couplings n_neutrinos a b momentum =
    gen_couplings n_neutrinos b a momentum.
Proof.
  assert (Hsym : ∀ p q, define_forward_scattering_term n_neutrinos p q =
                        define_forward_scattering_term n_neutrinos q p).
  { intros p' q'. unfold define_forward_scattering_term.
    by rewrite np_inner_comm. }
  split; [apply Hsym|].
  unfold gen_couplings.
  destruct (momentum !! a), (momentum !! b); simpl; try done.
  by rewrite Hsym.
Qed.

(** (C6) For a draw [(x, y, z)] of nonzero norm, the momentum returned by
    [generate_spherical_momentum] has Euclidean norm 1 (exact real
    arithmetic). *)
Theorem spherical_momentum_unit_norm (x y z : R) :
  (x ^ 2 + y ^ 2 + z ^ 2 ≠ 0)%R →
  euclidean_norm (generate_spherical_momentum (x, y, z)) = 1%R.
Proof.
  intros Hnz. unfold euclidean_norm. rewrite spherical_unit by done.
  apply sqrt_1.
Qed.

Lemma spherical_momentum_unit_norm_witness :
  (1 ^ 2 + 0 ^ 2 + 0 ^ 2 ≠ 0)%R ∧
  euclidean_norm (generate_spherical_momentum (1%R, 0%R, 0%R)) = 1%R.
Proof.
  assert (H : (1 ^ 2 + 0 ^ 2 + 0 ^ 2 ≠ 0)%R) by (simpl; lra).
  split; [exact H|]. apply (spherical_momentum_unit_norm _ _ _ H).
Defined.

(* ------------------------------------------------------------------ *)
(** ** The coupling graph *)

Lemma built_edge_weight n_neutrinos site draws i j :
  i < j < Z.to_nat n_neutrinos →
  let w := define_forward_scattering_term n_neutrinos
             (momentum_of draws i) (momentum_of draws j) in
  NX.edge_weight (built_graph n_neutrinos site draws) i j = Some w ∧
  NX.edge_weight (built_graph n_neutrinos site draws) j i = Some w.
Proof.
  intros Hij w. unfold NX.edge_weight, built_graph. simpl.
  assert (Hin : In (i, j, w) (coupling_edges n_neutrinos draws
                  (Z.to_nat n_neutrinos) (seq 0 (Z.to_nat n_neutrinos)))).
  { apply coupling_edges_In. by exists i, j. }
  assert (Hu : ∀ u v, (u = i ∧ v = j) ∨ (u = j ∧ v = i) →
    ∀ y, In y (coupling_edges n_neutrinos draws (Z.to_nat n_neutrinos)
                 (seq 0 (Z.to_nat n_neutrinos))) →
    NX.edge_matches u v y = true → y = (i, j, w)).
  { intros u v Huv y Hy Hm.
    apply coupling_edges_In in Hy as (a & b & Hab & ->).
    simpl in Hm. apply orb_true_iff in Hm.
    rewrite !andb_true_iff, !Nat.eqb_eq in Hm.
    assert (a = i ∧ b = j) as [-> ->] by lia. done. }
  split; rewrite (find_unique _ _ (i, j, w)); try done;
    simpl; rewrite ?Nat.eqb_refl; simpl; try rewrite orb_true_r; try done;
    apply Hu; auto.
Qed.

(** (C3) For every pair of distinct particles [i < j], the edge weight the
    builder attaches to [{i, j}] (read as [g[i][j]] or [g[j][i]]) is
    [(1 / (sqrt 2 * n)) * (1 - momentum_i . momentum_j)]. *)
Theorem edge_weight_formula (n_neutrinos : Z) (site : R)
    (draws : nat -> R * R * R) (i j : nat) :
  i < j < Z.to_nat n_neutrinos →
  ∃ g, generate_heisenberg_graph n_neutrinos site draws = Some g ∧
    let w := ((1 / (sqrt 2 * IZR n_neutrinos)) *
              (1 - np_inner (momentum_of draws i) (momentum_of draws j)))%R in
    NX.edge_weight g i j = Some w ∧ NX.edge_weight g j i = Some w.
Proof.
  intros Hij. exists (built_graph n_neutrinos site draws).
  split; [apply generate_heisenberg_graph_spec|].
  apply (built_edge_weight _ _ _ _ _ Hij).
Qed.

Lemma edge_weight_formula_witness :
  (0 < 1 < Z.to_nat 3) ∧
  ∃ g, generate_heisenberg_graph 3 0 draws_unit_x = Some g ∧
    let w := ((1 / (sqrt 2 * IZR 3)) *
              (1 - np_inner (momentum_of draws_unit_x 0)
                            (momentum_of draws_unit_x 1)))%R in
    NX.edge_weight g 0 1 = Some w ∧ NX.edge_weight g 1 0 = Some w.
Proof.
  assert (H : 0 < 1 < Z.to_nat 3) by (simpl; lia).
  split; [exact H|]. apply (edge_weight_formula 3 0 draws_unit_x 0 1 H).
Defined.

(** (C4) For [n > 0], the builder produces a complete graph: nodes
    [0..n-1] in order (each carrying the site weight), [n (n - 1) / 2]
    edges, each an unordered pair of distinct nodes, and an edge between
    every two distinct nodes. *)
Theorem heisenberg_graph_complete (n_neutrinos : Z) (site : R)
    (draws : nat -> R * R * R) :
  (0 < n_neutrinos)%Z →
  ∃ g, generate_heisenberg_graph n_neutrinos site draws = Some g ∧
    NX.node_ids g = seq 0 (Z.to_nat n_neutrinos) ∧
    Z.of_nat (length (g_nodes g)) = n_neutrinos ∧
    (∀ nd, In nd (g_nodes g) → nd.2 = Some site) ∧
    Z.of_nat (length (g_edges g)) = (n_neutrinos * (n_neutrinos - 1) / 2)%Z ∧
    (∀ u v w, In (u, v, w) (g_edges g) → u < v < Z.to_nat n_neutrinos) ∧
    (∀ i j, i < Z.to_nat n_neutrinos → j < Z.to_nat n_neutrinos → i ≠ j →
       NX.has_edge g i j = true).
Proof.
  intros Hn. exists (built_graph n_neutrinos site draws).
  split; [apply generate_heisenberg_graph_spec|].
  unfold built_graph, NX.node_ids; simpl.
  set (N := Z.to_nat n_neutrinos).
  assert (HN : Z.of_nat N = n_neutrinos) by (subst N; lia).
  split; [apply node_ids_of_seq|].
  split; [rewrite length_map, length_seq; done|].
  split.
  { intros nd Hnd. apply in_map_iff in Hnd as [k [<- _]]. done. }
  split.
  { pose proof (coupling_edges_length n_neutrinos draws N N 0 eq_refl) as HL.
    set (L := length _) in *.
    assert (Hz : (n_neutrinos * (n_neutrinos - 1))%Z = (Z.of_nat L * 2)%Z).
    { rewrite <- HN. destruct N as [|N']; [simpl in *; lia|].
      replace (S N' - 1) with N' in HL by lia. nia. }
    rewrite Hz, Z.div_mul by lia. done. }
  split.
  { intros u v w Hin. apply coupling_edges_In in Hin as (i & j & Hij & He).
    injection He as -> -> _. done. }
  intros i j Hi Hj Hne. unfold NX.has_edge. apply existsb_exists.
  destruct (Nat.lt_total i j) as [Hlt|[->|Hgt]]; [| done |].
  - eexists. split; [apply coupling_edges_In; exists i, j; split;
      [lia|reflexivity]|].
    simpl. rewrite !Nat.eqb_refl. done.
  - eexists. split; [apply coupling_edges_In; exists j, i; split;
      [lia|reflexivity]|].
    simpl. rewrite !Nat.eqb_refl. simpl. apply orb_true_r.
Qed.

Lemma heisenberg_graph_complete_witness :
  (0 < 4)%Z ∧
  ∃ g, generate_heisenberg_graph 4 0 draws_unit_x = Some g ∧
    NX.node_ids g = seq 0 (Z.to_nat 4) ∧
    Z.of_nat (length (g_nodes g)) = 4%Z ∧
    (∀ nd, In nd (g_nodes g) → nd.2 = Some 0%R) ∧
    Z.of_nat (length (g_edges g)) = (4 * (4 - 1) / 2)%Z ∧
    (∀ u v w, In (u, v, w) (g_edges g) → u < v < Z.to_nat 4) ∧
    (∀ i j, i < Z.to_nat 4 → j < Z.to_nat 4 → i ≠ j →
       NX.has_edge g i j = true).
Proof.
  assert (H : (0 < 4)%Z) by lia.
  split; [exact H|]. apply (heisenberg_graph_complete 4 0 draws_unit_x H).
Defined.

(** (C10) With exact arithmetic, for [n > 0] particles whose draws all
    have nonzero norm (so their momenta are unit vectors), every edge
    weight of the built graph lies in [[0, sqrt 2 / n]]. *)
Theorem coupling_weights_bounded (n_neutrinos : Z) (site : R)
    (draws : nat -> R * R * R) (g : nx_graph) (u v : nat) (w : R) :
  (0 < n_neutrinos)%Z →
  (∀ k, k < Z.to_nat n_neutrinos →
     let '(x, y, z) := draws k in (x ^ 2 + y ^ 2 + z ^ 2 ≠ 0)%R) →
  generate_heisenberg_graph n_neutrinos site draws = Some g →
  In (u, v, w) (g_edges g) →
  (0 <= w <= sqrt 2 / IZR n_neutrinos)%R.
Proof.
  intros Hn Hdraws Hg Hin.
  rewrite generate_heisenberg_graph_spec in Hg. injection Hg as <-.
  apply coupling_edges_In in Hin as (i & j & Hij & He).
  injection He as -> -> ->. unfold momentum_of.
  apply coupling_bounds; [done| |].
  - apply Hdraws. lia.
  - apply Hdraws. lia.
Qed.

Lemma coupling_weights_bounded_witness :
  let g := built_graph 2 0 draws_unit_x in
  let w := define_forward_scattering_term 2 (momentum_of draws_unit_x 0)
             (momentum_of draws_unit_x 1) in
  (0 < 2)%Z ∧
  (∀ k, k < Z.to_nat 2 →
     let '(x, y, z) := draws_unit_x k in (x ^ 2 + y ^ 2 + z ^ 2 ≠ 0)%R) ∧
  generate_heisenberg_graph 2 0 draws_unit_x = Some g ∧
  In (0, 1, w) (g_edges g) ∧
  (0 <= w <= sqrt 2 / IZR 2)%R.
Proof.
  intros g w.
  assert (H1 : (0 < 2)%Z) by lia.
  assert (H2 : ∀ k, k < Z.to_nat 2 →
     let '(x, y, z) := draws_unit_x k in (x ^ 2 + y ^ 2 + z ^ 2 ≠ 0)%R).
  { intros k _. simpl. lra. }
  assert (H3 : generate_heisenberg_graph 2 0 draws_unit_x = Some g)
    by apply generate_heisenberg_graph_spec.
  assert (H4 : In (0, 1, w) (g_edges g)) by (simpl; left; reflexivity).
  repeat split; try assumption;
    apply (coupling_weights_bounded 2 0 draws_unit_x g 0 1 w H1 H2 H3 H4).
Defined.

(** (C7) For a particle count [n <= 1] (one particle, zero or negative)
    nothing fails: the built graph has no edges and
    [generate_forward_scattering] returns the empty term list. *)
Theorem forward_scattering_degenerate (n_neutrinos : Z) (site : R)
    (draws : nat -> R * R * R) :
  (n_neutrinos <= 1)%Z →
  (∃ g, generate_heisenberg_graph n_neutrinos site draws = Some g ∧
        g_edges g = []) ∧
  generate_forward_scattering n_neutrinos site draws = Some [].
Proof.
  intros Hn.
  assert (HE : coupling_edges n_neutrinos draws (Z.to_nat n_neutrinos)
                 (seq 0 (Z.to_nat n_neutrinos)) = []).
  { destruct (Z.to_nat n_neutrinos) as [|[|N']] eqn:E; [done|done|lia]. }
  split.
  - exists (built_graph n_neutrinos site draws).
    split; [apply generate_heisenberg_graph_spec|exact HE].
  - rewrite generate_forward_scattering_spec.
    unfold nx_heisenberg_terms, built_graph. simpl. by rewrite HE.
Qed.

Lemma forward_scattering_degenerate_witness :
  (1 <= 1)%Z ∧
  (∃ g, generate_heisenberg_graph 1 0 draws_unit_x = Some g ∧
        g_edges g = []) ∧
  generate_forward_scattering 1 0 draws_unit_x = Some [].
Proof.
  assert (H : (1 <= 1)%Z) by lia.
  split; [exact H|]. apply (forward_scattering_degenerate 1 0 draws_unit_x H).
Defined.

(** (C8) The site interaction never reaches the output: two runs on the
    same particle count and the same draws that differ only in
    [site_interactions] return the same Hamiltonian. *)
Theorem site_interaction_noninterference (n_neutrinos : Z)
    (site1 site2 : R) (draws : nat -> R * R * R) :
  generate_forward_scattering n_neutrinos site1 draws =
  generate_forward_scattering n_neutrinos site2 draws.
Proof.
  rewrite !generate_forward_scattering_spec.
  unfold nx_heisenberg_terms, built_graph. simpl.
  by rewrite !length_map.
Qed.

(* ------------------------------------------------------------------ *)
(** ** The Hamiltonian of the pipeline *)

Lemma forward_scattering_blocks n_neutrinos site draws :
  generate_forward_scattering n_neutrinos site draws =
  Some (flat_map (edge_terms (Z.to_nat n_neutrinos) (Z.to_nat n_neutrinos))
          (g_edges (built_graph n_neutrinos site draws))).
Proof.
  rewrite generate_forward_scattering_spec.
  unfold nx_heisenberg_terms, built_graph. simpl.
  by rewrite length_map, length_seq.
Qed.

Lemma coupling_nonzero_iff (n_neutrinos : Z) p q :
  (0 < n_neutrinos)%Z →
  define_forward_scattering_term n_neutrinos p q ≠ 0%R ↔ np_inner p q ≠ 1%R.
Proof.
  intros Hn. unfold define_forward_scattering_term.
  assert (HN : (0 < IZR n_neutrinos)%R) by (apply IZR_lt; lia).
  assert (Hr : (0 < sqrt 2)%R) by (apply sqrt_lt_R0; lra).
  assert (Hf : (1 / (sqrt 2 * IZR n_neutrinos) ≠ 0)%R).
  { apply Rgt_not_eq, Rdiv_lt_0_compat; [lra|].
    apply Rmult_lt_0_compat; lra. }
  split.
  - intros H Hd. apply H. rewrite Hd. ring.
  - intros Hd H. apply Rmult_integral in H as [H|H]; [done|].
    apply Hd. lra.
Qed.

Lemma firstn_incl {A} (k : nat) (l : list A) x :
  In x (firstn k l) → In x l.
Proof.
  intros H. rewrite <- (firstn_skipn k l). apply in_or_app. by left.
Qed.

(** (C9) Every edge [(a, b)] of the expanded graph has [a < b], and the
    first [a] terms of its block are the all-identity string with the
    edge weight; the block holds exactly [a = min a b] all-identity terms.
    Hence for [n >= 3] the Hamiltonian contains the all-identity term
    with the weight of the edge [(1, 2)], which is nonzero exactly when
    the two momenta have inner product different from 1. *)
Theorem identity_terms_in_hamiltonian (n_neutrinos : Z) (site : R)
    (draws : nat -> R * R * R) :
  (3 <= n_neutrinos)%Z →
  let N := Z.to_nat n_neutrinos in
  ∃ g h, generate_heisenberg_graph n_neutrinos site draws = Some g ∧
    generate_forward_scattering n_neutrinos site draws = Some h ∧
    h = flat_map (edge_terms N N) (g_edges g) ∧
    (∀ a b w, In (a, b, w) (g_edges g) →
       a < b ∧
       firstn a (edge_terms N N (a, b, w)) = repeat (repeat "I"%char N, w) a ∧
       count_all_I (edge_terms N N (a, b, w)) = min a b) ∧
    let w12 := define_forward_scattering_term n_neutrinos
                 (momentum_of draws 1) (momentum_of draws 2) in
    In (repeat "I"%char N, w12) h ∧
    (w12 ≠ 0%R ↔ np_inner (momentum_of draws 1) (momentum_of draws 2) ≠ 1%R).
Proof.
  intros Hn N.
  assert (Hblock : ∀ a b w, In (a, b, w) (g_edges (built_graph n_neutrinos site draws)) →
       a < b ∧
       firstn a (edge_terms N N (a, b, w)) = repeat (repeat "I"%char N, w) a ∧
       count_all_I (edge_terms N N (a, b, w)) = min a b).
  { intros a b w Hin. apply coupling_edges_In in Hin as (i & j & Hij & He).
    injection He as -> -> ->.
    destruct (edge_terms_identity_block N i j
                (define_forward_scattering_term n_neutrinos
                   (momentum_of draws i) (momentum_of draws j)))
      as [H1 H2]; [subst N; lia|].
    rewrite Nat.min_l in H1 by lia. split; [lia|]. done. }
  eexists _, _. split; [apply generate_heisenberg_graph_spec|].
  split; [apply forward_scattering_blocks|].
  split; [reflexivity|]. split; [exact Hblock|].
  intros w12. split.
  - apply in_flat_map. exists (1, 2, w12). split.
    + apply coupling_edges_In. exists 1, 2. split; [lia|reflexivity].
    + destruct (Hblock 1 2 w12) as [_ [Hf _]].
      { apply coupling_edges_In. exists 1, 2. split; [lia|reflexivity]. }
      apply (firstn_incl 1). change (Z.to_nat n_neutrinos) with N. rewrite Hf. by left.
  - apply coupling_nonzero_iff. lia.
Qed.

Lemma identity_terms_in_hamiltonian_witness :
  (3 <= 3)%Z ∧
  let N := Z.to_nat 3 in
  ∃ g h, generate_heisenberg_graph 3 0 draws_unit_x = Some g ∧
    generate_forward_scattering 3 0 draws_unit_x = Some h ∧
    h = flat_map (edge_terms N N) (g_edges g) ∧
    (∀ a b w, In (a, b, w) (g_edges g) →
       a < b ∧
       firstn a (edge_terms N N (a, b, w)) = repeat (repeat "I"%char N, w) a ∧
       count_all_I (edge_terms N N (a, b, w)) = min a b) ∧
    let w12 := define_forward_scattering_term 3
                 (momentum_of draws_unit_x 1) (momentum_of draws_unit_x 2) in
    In (repeat "I"%char N, w12) h ∧
    (w12 ≠ 0%R ↔ np_inner (momentum_of draws_unit_x 1)
                           (momentum_of draws_unit_x 2) ≠ 1%R).
Proof.
  assert (H : (3 <= 3)%Z) by lia.
  split; [exact H|]. apply (identity_terms_in_hamiltonian 3 0 draws_unit_x H).
Defined.

(** (C2, as the code behaves) Two particles: one edge, and the expansion
    is exactly [XI, XX, YX, YY, ZY, ZZ], all with the coupling of the two
    momenta: each axis pass ends at [XX], [YY], [ZZ] and its first
    snapshot is a partial overwrite. *)
Theorem two_particle_expansion (site : R) (draws : nat -> R * R * R) :
  let w := define_forward_scattering_term 2 (momentum_of draws 0)
             (momentum_of draws 1) in
  (∃ g, generate_heisenberg_graph 2 site draws = Some g ∧
        length (g_edges g) = 1) ∧
  generate_forward_scattering 2 site draws =
    Some [(["X"; "I"], w); (["X"; "X"], w); (["Y"; "X"], w);
          (["Y"; "Y"], w); (["Z"; "Y"], w); (["Z"; "Z"], w)]%char.
Proof.
  intros w. split.
  - exists (built_graph 2 site draws).
    split; [apply generate_heisenberg_graph_spec|reflexivity].
  - rewrite generate_forward_scattering_spec. reflexivity.
Qed.

(** (C2) The two-particle expansion has no ["II"] snapshot and no
    duplicated snapshot at all. *)
Lemma two_particle_no_identity_snapshot :
  ∃ h, generate_forward_scattering 2 0 draws_unit_x = Some h ∧
    ¬ In ["I"; "I"]%char (map fst h) ∧ List.NoDup (map fst h).
Proof.
  rewrite generate_forward_scattering_spec. eexists. split; [reflexivity|].
  assert (E : map fst (nx_heisenberg_terms (built_graph 2 0 draws_unit_x)) =
              [["X"; "I"]; ["X"; "X"]; ["Y"; "X"]; ["Y"; "Y"];
               ["Z"; "Y"]; ["Z"; "Z"]]%char) by reflexivity.
  rewrite E. split.
  - simpl. intuition discriminate.
  - repeat constructor; simpl; intuition discriminate.
Qed.

(* ------------------------------------------------------------------ *)
(** ** Further properties of the expansion *)

Lemma site_pass_buffer pauli N a b w idx s :
  pauli = "X"%char ∨ pauli = "Y"%char ∨ pauli = "Z"%char →
  (∀ i, In i idx → i < N) → edge_buffer N a b s →
  edge_buffer N a b (site_pass pauli a b w idx s).1 ∧
  Forall (fun t => edge_buffer N a b t.1 ∧ t.2 = w)
    (site_pass pauli a b w idx s).2.
Proof.
  intros Hp. revert s; induction idx as [|i rest IH]; intros s Hidx Hs;
    simpl; [done|].
  set (s' := if (i =? a) || (i =? b) then set_char s i pauli else s).
  assert (Hs' : edge_buffer N a b s').
  { subst s'. destruct (_ || _) eqn:Hhit; [|done].
    destruct Hs as [Hl Hc].
    assert (Hi : i < length s) by (rewrite Hl; apply Hidx; by left).
    rewrite set_char_insert by done. split; [by rewrite length_insert|].
    intros q c Hq. destruct (decide (i = q)) as [<-|Hne].
    - rewrite list_lookup_insert_eq in Hq by done. injection Hq as <-.
      split; [unfold is_pauli_symbol; tauto|].
      apply orb_true_iff in Hhit as [H|H]; apply Nat.eqb_eq in H; lia.
    - rewrite list_lookup_insert_ne in Hq by done. by apply Hc. }
  destruct (IH s') as [IH1 IH2]; [intros j Hj; apply Hidx; by right|done|].
  destruct (site_pass _ _ _ _ rest s') as [sf ts]. simpl in *.
  split; [done|]. by constructor.
Qed.

Lemma axis_pass_buffer paulis N a b w s :
  Forall (fun p => p = "X"%char ∨ p = "Y"%char ∨ p = "Z"%char) paulis →
  edge_buffer N a b s →
  Forall (fun t => edge_buffer N a b t.1 ∧ t.2 = w)
    (axis_pass paulis a b w N s).2.
Proof.
  revert s; induction paulis as [|p rest IH]; intros s Hps Hs; simpl; [done|].
  inversion Hps as [|? ? Hp Hrest]; subst.
  destruct (site_pass_buffer p N a b w (seq 0 N) s Hp) as [H1 H2].
  { intros i Hi. apply in_seq in Hi. lia. }
  { done. }
  destruct (site_pass p a b w (seq 0 N) s) as [s1 ts1]. simpl in *.
  specialize (IH s1 Hrest H1).
  destruct (axis_pass rest a b w N s1) as [s2 ts2]. simpl in *.
  by apply Forall_app.
Qed.

Lemma lookup_repeat_Some' {A} (x : A) N i c :
  repeat x N !! i = Some c → c = x ∧ i < N.
Proof.
  revert i; induction N as [|N IH]; intros i Hi; [done|].
  destruct i as [|i]; simpl in Hi.
  - injection Hi as <-. split; [done|lia].
  - apply IH in Hi as [-> ?]. split; [done|lia].
Qed.

Lemma lookup_repeat_lt {A} (x : A) N i : i < N → repeat x N !! i = Some x.
Proof.
  revert i; induction N as [|N IH]; intros i Hi; [lia|].
  destruct i as [|i]; simpl; [done|]. apply IH. lia.
Qed.

Lemma edge_buffer_identity N a b : edge_buffer N a b (repeat "I"%char N).
Proof.
  split; [apply repeat_length|]. intros i c Hi.
  apply lookup_repeat_Some' in Hi as [-> _].
  split; [unfold is_pauli_symbol; tauto|done].
Qed.

Lemma edge_terms_buffer N a b w :
  Forall (fun t => edge_buffer N a b t.1 ∧ t.2 = w) (edge_terms N N (a, b, w)).
Proof.
  unfold edge_terms. apply axis_pass_buffer; [|apply edge_buffer_identity].
  unfold paulis_XYZ. repeat constructor; tauto.
Qed.

Lemma flat_map_edge_terms_shape N es :
  Forall (fun t => ∃ a b w, In (a, b, w) es ∧ t.2 = w ∧ length t.1 = N ∧
            (∀ i c, t.1 !! i = Some c →
               is_pauli_symbol c ∧ (i ≠ a → i ≠ b → c = "I"%char)))
    (flat_map (edge_terms N N) es).
Proof.
  induction es as [|[[a b] w] es IH]; simpl; [constructor|].
  apply Forall_app. split.
  - eapply Forall_impl; [apply edge_terms_buffer|].
    intros t [[Hl Hc] Hw]. exists a, b, w. split; [by left|]. done.
  - eapply Forall_impl; [exact IH|].
    intros t (a' & b' & w' & Hin & Rest). exists a', b', w'.
    split; [by right|exact Rest].
Qed.

(** Every term returned by [nx_heisenberg_terms] belongs to an edge
    [(a, b, w)] of the graph: it carries the weight [w], and its operator
    string has one symbol of {I, X, Y, Z} per node, with [I] at every
    position other than [a] and [b]. *)
Theorem heisenberg_term_shape (g : nx_graph) :
  Forall (fun t => ∃ a b w, In (a, b, w) (g_edges g) ∧ t.2 = w ∧
            length t.1 = length (g_nodes g) ∧
            (∀ i c, t.1 !! i = Some c →
               is_pauli_symbol c ∧ (i ≠ a → i ≠ b → c = "I"%char)))
    (nx_heisenberg_terms g).
Proof. apply flat_map_edge_terms_shape. Qed.



Lemma site_pass_final_length pauli a b w idx s :
  (∀ i, In i idx → i < length s) →
  length (site_pass pauli a b w idx s).1 = length s.
Proof.
  revert s; induction idx as [|i rest IH]; intros s Hidx; simpl; [done|].
  set (s' := if (i =? a) || (i =? b) then set_char s i pauli else s).
  assert (Hl : length s' = length s).
  { subst s'. destruct (_ || _); [|done].
    rewrite set_char_insert by (apply Hidx; by left). apply length_insert. }
  specialize (IH s'). destruct (site_pass _ _ _ _ rest s') as [sf ts].
  simpl in *. rewrite IH, Hl; [done|].
  intros j Hj. rewrite Hl. apply Hidx. by right.
Qed.

(** After a pass, the endpoints met by the loop hold the pass symbol and
    every other position is unchanged. *)
Lemma site_pass_final pauli a b w idx s q :
  (∀ i, In i idx → i < length s) →
  ((In q idx ∧ (q = a ∨ q = b)) →
     (site_pass pauli a b w idx s).1 !! q = Some pauli) ∧
  (¬ (In q idx ∧ (q = a ∨ q = b)) →
     (site_pass pauli a b w idx s).1 !! q = s !! q).
Proof.
  revert s; induction idx as [|i rest IH]; intros s Hidx; simpl.
  - split; [intros [[] _]|done].
  - set (s' := if (i =? a) || (i =? b) then set_char s i pauli else s).
    assert (Hi : i < length s) by (apply Hidx; by left).
    assert (Hl : length s' = length s).
    { subst s'. destruct (_ || _); [|done].
      rewrite set_char_insert by done. apply length_insert. }
    destruct (IH s') as [IH1 IH2].
    { intros j Hj. rewrite Hl. apply Hidx. by right. }
    destruct (site_pass _ _ _ _ rest s') as [sf ts]. simpl in *.
    split.
    + intros [Hq Hab]. destruct (in_dec Nat.eq_dec q rest) as [Hr|Hr].
      * apply IH1. done.
      * destruct Hq as [<-|Hq]; [|done].
        rewrite IH2 by tauto. subst s'.
        assert (Hhit : (i =? a) || (i =? b) = true).
        { apply orb_true_iff. destruct Hab as [->| ->];
            [left|right]; apply Nat.eqb_refl. }
        rewrite Hhit, set_char_insert by done.
        by apply list_lookup_insert_eq.
    + intros Hn. rewrite IH2 by tauto. subst s'.
      destruct ((i =? a) || (i =? b)) eqn:Hhit; [|done].
      rewrite set_char_insert by done.
      apply list_lookup_insert_ne. intros <-. apply Hn. split; [by left|].
      apply orb_true_iff in Hhit as [H|H]; apply Nat.eqb_eq in H; tauto.
Qed.

(** The last snapshot of a pass is its final buffer. *)
Lemma site_pass_last pauli a b w idx s :
  idx ≠ [] →
  (site_pass pauli a b w idx s).2 !! (length idx - 1) =
    Some ((site_pass pauli a b w idx s).1, w).
Proof.
  revert s; induction idx as [|i rest IH]; intros s Hne; [done|].
  simpl. set (s' := if (i =? a) || (i =? b) then set_char s i pauli else s).
  destruct rest as [|j rest'].
  - simpl. done.
  - specialize (IH s' ltac:(done)).
    destruct (site_pass _ _ _ _ (j :: rest') s') as [sf ts]. simpl in *.
    replace (length rest' - 0) with (length rest') in IH by lia.
    exact IH.
Qed.

Lemma axis_snapshot_length N a b pauli :
  length (axis_snapshot N a b pauli) = N.
Proof. unfold axis_snapshot. by rewrite !length_insert, repeat_length. Qed.

Lemma axis_snapshot_other N a b pauli q :
  q ≠ a → q ≠ b → axis_snapshot N a b pauli !! q = repeat "I"%char N !! q.
Proof.
  intros Ha Hb. unfold axis_snapshot.
  rewrite !list_lookup_insert_ne by congruence. done.
Qed.

Lemma axis_snapshot_endpoint N a b pauli q :
  a < N → b < N → (q = a ∨ q = b) →
  axis_snapshot N a b pauli !! q = Some pauli.
Proof.
  intros Ha Hb Hq. unfold axis_snapshot.
  destruct (decide (q = a)) as [->|Hne].
  - apply list_lookup_insert_eq. by rewrite length_insert, repeat_length.
  - rewrite list_lookup_insert_ne by congruence.
    destruct Hq as [Hqa| ->]; [congruence|].
    apply list_lookup_insert_eq. by rewrite repeat_length.
Qed.

(** A full pass over [0..N-1] from a buffer that is identity away from the
    endpoints ends at the snapshot of the pass symbol. *)
Lemma site_pass_snapshot pauli N a b w s :
  a < N → b < N → length s = N →
  (∀ q, q ≠ a → q ≠ b → q < N → s !! q = Some "I"%char) →
  (site_pass pauli a b w (seq 0 N) s).1 = axis_snapshot N a b pauli.
Proof.
  intros Ha Hb Hl Hs. apply list_eq. intros q.
  assert (Hidx : ∀ i, In i (seq 0 N) → i < length s).
  { intros i Hi. apply in_seq in Hi. lia. }
  destruct (site_pass_final pauli a b w (seq 0 N) s q Hidx) as [H1 H2].
  destruct (decide (q = a ∨ q = b)) as [Hq|Hq].
  - rewrite H1, axis_snapshot_endpoint; try done.
    split; [apply in_seq; destruct Hq; lia|done].
  - rewrite H2 by (intros [_ ?]; done).
    rewrite axis_snapshot_other by tauto.
    destruct (decide (q < N)) as [Hlt|Hge].
    + rewrite Hs by tauto. by rewrite lookup_repeat_lt.
    + rewrite !lookup_ge_None_2; try done; rewrite ?repeat_length; lia.
Qed.

Lemma site_pass_snapshot_terms pauli N a b w s :
  a < N → b < N → length s = N →
  (∀ q, q ≠ a → q ≠ b → q < N → s !! q = Some "I"%char) →
  ∃ ts, site_pass pauli a b w (seq 0 N) s = (axis_snapshot N a b pauli, ts) ∧
    length ts = N ∧ ts !! (N - 1) = Some (axis_snapshot N a b pauli, w).
Proof.
  intros Ha Hb Hl Hs.
  pose proof (site_pass_snapshot pauli N a b w s Ha Hb Hl Hs) as H1.
  pose proof (site_pass_length pauli a b w (seq 0 N) s) as H2.
  pose proof (site_pass_last pauli a b w (seq 0 N) s) as H3.
  rewrite length_seq in H2, H3.
  destruct (site_pass pauli a b w (seq 0 N) s) as [sf ts]. simpl in *.
  subst sf. exists ts. split; [done|]. split; [done|].
  apply H3. destruct N; [lia|done].
Qed.

Lemma axis_snapshot_identity_elsewhere N a b pauli q :
  q ≠ a → q ≠ b → q < N → axis_snapshot N a b pauli !! q = Some "I"%char.
Proof.
  intros Ha Hb Hq. rewrite axis_snapshot_other by done.
  by apply lookup_repeat_lt.
Qed.

(** For an edge [(a, b)] with both endpoints below [N], the snapshots that
    end the three axis passes (terms [N - 1], [2N - 1] and [3N - 1] of the
    edge's block) are the identity string with [X], then [Y], then [Z]
    written at positions [a] and [b]: the symbols of the previous pass are
    all overwritten. *)
Theorem axis_pass_endpoints (N a b : nat) (w : R) :
  a < N → b < N →
  edge_terms N N (a, b, w) !! (N - 1) = Some (axis_snapshot N a b "X", w) ∧
  edge_terms N N (a, b, w) !! (2 * N - 1) =
    Some (axis_snapshot N a b "Y", w) ∧
  edge_terms N N (a, b, w) !! (3 * N - 1) =
    Some (axis_snapshot N a b "Z", w).
Proof.
  intros Ha Hb. unfold edge_terms, paulis_XYZ.
  destruct (site_pass_snapshot_terms "X" N a b w (repeat "I"%char N))
    as (t1 & E1 & L1 & T1); try done.
  { apply repeat_length. }
  { intros q _ _ Hq. by apply lookup_repeat_lt. }
  rewrite axis_pass_cons, E1; cbv beta match.
  destruct (site_pass_snapshot_terms "Y" N a b w (axis_snapshot N a b "X"))
    as (t2 & E2 & L2 & T2); try done.
  { apply axis_snapshot_length. }
  { intros q ? ? ?. by apply axis_snapshot_identity_elsewhere. }
  rewrite axis_pass_cons, E2; cbv beta match.
  destruct (site_pass_snapshot_terms "Z" N a b w (axis_snapshot N a b "Y"))
    as (t3 & E3 & L3 & T3); try done.
  { apply axis_snapshot_length. }
  { intros q ? ? ?. by apply axis_snapshot_identity_elsewhere. }
  rewrite axis_pass_cons, E3; cbv beta match.
  cbn [axis_pass snd]. rewrite app_nil_r.
  split; [rewrite lookup_app_l by lia; done|].
  split.
  - rewrite lookup_app_r by lia. rewrite lookup_app_l by lia.
    rewrite L1. replace (2 * N - 1 - N) with (N - 1) by lia. exact T2.
  - rewrite lookup_app_r by lia. rewrite lookup_app_r by lia.
    rewrite L1, L2. replace (3 * N - 1 - N - N) with (N - 1) by lia. exact T3.
Qed.

Lemma axis_pass_endpoints_witness :
  (0 < 3 ∧ 2 < 3) ∧
  edge_terms 3 3 (0, 2, 1%R) !! (3 - 1) =
    Some (axis_snapshot 3 0 2 "X", 1%R) ∧
  edge_terms 3 3 (0, 2, 1%R) !! (2 * 3 - 1) =
    Some (axis_snapshot 3 0 2 "Y", 1%R) ∧
  edge_terms 3 3 (0, 2, 1%R) !! (3 * 3 - 1) =
    Some (axis_snapshot 3 0 2 "Z", 1%R).
Proof.
  assert (Ha : 0 < 3) by lia. assert (Hb : 2 < 3) by lia.
  split; [split; assumption|]. apply (axis_pass_endpoints 3 0 2 1%R Ha Hb).
Defined.

(* ------------------------------------------------------------------ *)
(** ** Size of the generated Hamiltonian *)


Lemma length_flat_map_const {A B} (f : A → list B) (l : list A) c :
  (∀ x, In x l → length (f x) = c) →
  length (flat_map f l) = c * length l.
Proof.
  induction l as [|x l IH]; intros H; simpl; [lia|].
  rewrite length_app, H by (left; done).
  rewrite IH by (intros y Hy; apply H; right; done). lia.
Qed.


(** For every particle count [n_neutrinos] the pipeline
    [generate_forward_scattering] returns a Hamiltonian, of
    [3 N * N (N - 1) / 2] terms for [N = max 0 n_neutrinos]: one block of
    [3 N] terms per pair of particles. *)
Theorem forward_scattering_size (n_neutrinos : Z) (site : R)
    (draws : nat -> R * R * R) :
  let N := Z.to_nat n_neutrinos in
  ∃ h, generate_forward_scattering n_neutrinos site draws = Some h ∧
    2 * length h = 3 * N * (N * (N - 1)).
Proof.
  intros N. eexists. split; [apply forward_scattering_blocks|].
  rewrite (length_flat_map_const _ _ (3 * N))
    by (intros e _; apply edge_terms_length).
  unfold built_graph. cbn [g_edges]. fold N.
  rewrite <- (coupling_edges_length n_neutrinos draws N N 0) by lia. lia.
Qed.


(* ------------------------------------------------------------------ *)
(** ** Direction of the sampled momenta *)

Lemma sqrt_scaled_norm (c x y z : R) :
  (sqrt ((c * x) ^ 2 + (c * y) ^ 2 + (c * z) ^ 2) =
   Rabs c * sqrt (x ^ 2 + y ^ 2 + z ^ 2))%R.
Proof.
  replace ((c * x) ^ 2 + (c * y) ^ 2 + (c * z) ^ 2)%R
    with (c ^ 2 * (x ^ 2 + y ^ 2 + z ^ 2))%R by ring.
  rewrite sqrt_mult_alt by nra.
  rewrite <- sqrt_Rsqr_abs. unfold Rsqr. f_equal; f_equal; ring.
Qed.

Lemma spherical_momentum_scale (c x y z : R) :
  c ≠ 0%R → (x ^ 2 + y ^ 2 + z ^ 2 ≠ 0)%R →
  generate_spherical_momentum (c * x, c * y, c * z)%R =
  map (Rmult (c / Rabs c)) (generate_spherical_momentum (x, y, z)).
Proof.
  intros Hc HS. unfold generate_spherical_momentum.
  rewrite sqrt_scaled_norm.
  assert (Hs : sqrt (x ^ 2 + y ^ 2 + z ^ 2) ≠ 0%R).
  { intros E. apply sqrt_eq_0 in E; [done|nra]. }
  assert (Ha : Rabs c ≠ 0%R) by (apply Rabs_no_R0; done).
  simpl. f_equal; [|f_equal; [|f_equal]]; field; auto.
Qed.

Lemma np_inner_scale3 (k : R) (p : list R) :
  length p = 3 →
  np_inner p (map (Rmult k) p) = (k * np_inner p p)%R.
Proof.
  intros Hl. destruct p as [|a [|b [|c [|? ?]]]]; try discriminate.
  unfold np_inner. cbn [map combine fold_left fst snd]. ring.
Qed.

(** [generate_spherical_momentum] depends only on the direction of the
    normal draw: scaling [x, y, z] by a positive factor gives the same
    momentum. *)
Theorem spherical_momentum_direction (c x y z : R) :
  (0 < c)%R → (x ^ 2 + y ^ 2 + z ^ 2 ≠ 0)%R →
  generate_spherical_momentum (c * x, c * y, c * z)%R =
  generate_spherical_momentum (x, y, z).
Proof.
  intros Hc HS. rewrite spherical_momentum_scale by (auto; lra).
  rewrite Rabs_pos_eq by lra. replace (c / c)%R with 1%R by (field; lra).
  simpl. unfold generate_spherical_momentum. simpl. f_equal; [|f_equal; [|f_equal]]; ring.
Qed.

Lemma spherical_momentum_direction_witness :
  ((0 < 2)%R ∧ (1 ^ 2 + 0 ^ 2 + 0 ^ 2 ≠ 0)%R) ∧
  generate_spherical_momentum (2 * 1, 2 * 0, 2 * 0)%R =
  generate_spherical_momentum (1, 0, 0)%R.
Proof.
  assert (H1 : (0 < 2)%R) by lra.
  assert (H2 : (1 ^ 2 + 0 ^ 2 + 0 ^ 2 ≠ 0)%R) by (simpl; lra).
  split; [split; assumption|].
  apply (spherical_momentum_direction 2 1 0 0 H1 H2).
Defined.

(** The coupling of two particles whose draws point the same way is [0]
    (the minimum); for draws pointing opposite ways it is
    [sqrt 2 / n_neutrinos] (the maximum). *)
Theorem coupling_aligned_opposed (n_neutrinos : Z) (c x y z : R) :
  (n_neutrinos ≠ 0)%Z → (x ^ 2 + y ^ 2 + z ^ 2 ≠ 0)%R →
  ((0 < c)%R →
   define_forward_scattering_term n_neutrinos
     (generate_spherical_momentum (x, y, z))
     (generate_spherical_momentum (c * x, c * y, c * z)%R) = 0%R) ∧
  ((c < 0)%R →
   define_forward_scattering_term n_neutrinos
     (generate_spherical_momentum (x, y, z))
     (generate_spherical_momentum (c * x, c * y, c * z)%R) =
   (sqrt 2 / IZR n_neutrinos)%R).
Proof.
  intros Hn HS.
  assert (Hn' : IZR n_neutrinos ≠ 0%R) by (apply not_0_IZR; done).
  assert (H2 : sqrt 2 ≠ 0%R) by (apply Rgt_not_eq, sqrt_lt_R0; lra).
  assert (Hl : length (generate_spherical_momentum (x, y, z)) = 3) by done.
  split; intros Hc.
  - rewrite spherical_momentum_scale by (auto; lra).
    rewrite Rabs_pos_eq by lra. unfold define_forward_scattering_term.
    rewrite np_inner_scale3, spherical_unit by done.
    replace (c / c)%R with 1%R by (field; lra). ring.
  - rewrite spherical_momentum_scale by (auto; lra).
    rewrite Rabs_left by lra. unfold define_forward_scattering_term.
    rewrite np_inner_scale3, spherical_unit by done.
    replace (c / - c)%R with (-1)%R by (field; lra).
    replace (1 - -1 * 1)%R with (sqrt 2 * sqrt 2)%R by (rewrite sqrt_sqrt; lra).
    field. auto.
Qed.

Lemma coupling_aligned_opposed_witness :
  ((1 ≠ 0)%Z ∧ (1 ^ 2 + 0 ^ 2 + 0 ^ 2 ≠ 0)%R) ∧
  ((0 < 2)%R →
   define_forward_scattering_term 1
     (generate_spherical_momentum (1, 0, 0)%R)
     (generate_spherical_momentum (2 * 1, 2 * 0, 2 * 0)%R) = 0%R) ∧
  ((2 < 0)%R →
   define_forward_scattering_term 1
     (generate_spherical_momentum (1, 0, 0)%R)
     (generate_spherical_momentum (2 * 1, 2 * 0, 2 * 0)%R) =
   (sqrt 2 / IZR 1)%R).
Proof.
  assert (H1 : (1 ≠ 0)%Z) by lia.
  assert (H2 : (1 ^ 2 + 0 ^ 2 + 0 ^ 2 ≠ 0)%R) by (simpl; lra).
  split; [split; assumption|].
  apply (coupling_aligned_opposed 1 2 1 0 0 H1 H2).
Defined.

(* ------------------------------------------------------------------ *)
(** ** Use of the random source *)

Lemma built_graph_draws n_neutrinos site d1 d2 :
  (∀ k, k < Z.to_nat n_neutrinos → d1 k = d2 k) →
  built_graph n_neutrinos site d1 = built_graph n_neutrinos site d2.
Proof.
  intros H. unfold built_graph, coupling_edges. f_equal.
  rewrite !flat_map_concat_map. f_equal.
  apply map_ext_in. intros i Hi. apply in_seq in Hi.
  apply map_ext_in. intros j Hj. apply in_seq in Hj.
  unfold momentum_of. rewrite !H by lia. done.
Qed.

(** [generate_heisenberg_graph] and [generate_forward_scattering] only use
    the first [n_neutrinos] sampler calls: two random sources that agree on
    them give the same graph and the same Hamiltonian. *)
Theorem pipeline_uses_first_draws (n_neutrinos : Z) (site : R)
    (d1 d2 : nat -> R * R * R) :
  (∀ k, k < Z.to_nat n_neutrinos → d1 k = d2 k) →
  generate_heisenberg_graph n_neutrinos site d1 =
    generate_heisenberg_graph n_neutrinos site d2 ∧
  generate_forward_scattering n_neutrinos site d1 =
    generate_forward_scattering n_neutrinos site d2.
Proof.
  intros H. rewrite !generate_heisenberg_graph_spec,
    !generate_forward_scattering_spec.
  rewrite (built_graph_draws n_neutrinos site d1 d2 H). done.
Qed.

Lemma pipeline_uses_first_draws_witness :
  (∀ k, k < Z.to_nat 2 → draws_unit_x k = draws_after_two k) ∧
  generate_heisenberg_graph 2 0 draws_unit_x =
    generate_heisenberg_graph 2 0 draws_after_two ∧
  generate_forward_scattering 2 0 draws_unit_x =
    generate_forward_scattering 2 0 draws_after_two.
Proof.
  assert (H : ∀ k, k < Z.to_nat 2 → draws_unit_x k = draws_after_two k).
  { intros k Hk. destruct k as [|[|k]]; [reflexivity|reflexivity|simpl in Hk; lia]. }
  split; [exact H|]. apply (pipeline_uses_first_draws 2 0 _ _ H).
Defined.

(* ------------------------------------------------------------------ *)
(** ** The run name *)

Lemma string_of_int_parse (d : Decimal.int) :
  ∃ d', DecimalString.NilZero.int_of_string
          (DecimalString.NilZero.string_of_int d) = Some d' ∧
        Z.of_int d' = Z.of_int d.
Proof.
  destruct d as [u|u]; destruct u;
    try (eexists; split; reflexivity);
    eexists; (split; [apply DecimalString.NilZero.isi; discriminate|
                      reflexivity]).
Qed.

Lemma py_str_int_inj (a b : Z) : py_str_int a = py_str_int b → a = b.
Proof.
  unfold py_str_int. intros E.
  destruct (string_of_int_parse (Z.to_int a)) as (da & Ha & Ea).
  destruct (string_of_int_parse (Z.to_int b)) as (db & Hb & Eb).
  rewrite E, Hb in Ha. injection Ha as <-.
  rewrite DecimalZ.of_to in Ea, Eb. congruence.
Qed.

Lemma string_append_cancel_l (s a b : string) :
  String.append s a = String.append s b → a = b.
Proof.
  induction s as [|c s IH]; simpl; [done|]. intros E. injection E. auto.
Qed.

(** The run name of [main] is [estimated_fs_<n>] exactly when no Trotter
    step count is given or it is [0]; any other count gives a name that no
    run without a count can have, and distinct particle counts give
    distinct names. *)
Theorem hamiltonian_name_estimated (k n m : Z) :
  hamiltonian_name (Some k) n = hamiltonian_name None m ↔
  k = 0%Z ∧ n = m.
Proof.
  split.
  - intros E. destruct (Z.eq_dec k 0%Z) as [->|Hk].
    + split; [done|]. apply py_str_int_inj.
      apply (string_append_cancel_l "estimated_fs_"). exact E.
    + exfalso. unfold hamiltonian_name in E. cbn [py_truthy] in E.
      rewrite (proj2 (Z.eqb_neq k 0%Z) Hk) in E. cbn [negb py_str_opt] in E.
      revert E. unfold py_str_int at 1.
      destruct (Z.to_int k) as [u|u]; destruct u; discriminate.
  - intros [-> ->]. done.
Qed.
